(** * Quidel update: reconciliation of the derived series into the [quidel] table

    Shallow embedding of [src/acquisition/quidel/quidel_update.py].

    - The MySQL table [quidel] is a list of rows in insertion order.  The
      auto-increment [id] column is never read by the program and is left out.
    - The connection, the cursor and the console are one [world]: the table,
      the server's reading of [yearweek(now(), 6)], and the trace of every
      call that leaves the process (collaborator calls, statements, prints).
    - The program is written in a state monad over [world].
    - [update] is followed along the run in which no collaborator or
      database call raises.  The source has no handler, so a call that
      raises ends the run (and [main]) at that call: what the run has done
      by then is a prefix of the trace given here.
    - What lives outside the file ([delphi.utils.epiweek], [Locations],
      [quidel.QuidelData], [str.lower], the numeric type of a series entry,
      the column defaults of the table) is a field of the class
      [Environment]. *)

From Stdlib Require Import ZArith Ascii String.
From stdpp Require Import base strings list sorting gmap fin_maps fin_sets.

#[local] Set Warnings "-clear-no-such-hyp".

Local Open Scope Z_scope.

(** ** The state monad of the program *)

Module Prog.

Definition prog (W A : Type) : Type := W → A * W.

Definition ret {W A} (a : A) : prog W A := λ w, (a, w).

Definition bind {W A B} (m : prog W A) (k : A → prog W B) : prog W B :=
  λ w, k (m w).1 (m w).2.

(** [for x in l: s = body x s] *)
Fixpoint for_each {W A S} (l : list A) (body : A → S → prog W S) (s : S)
  : prog W S :=
  match l with
  | [] => ret s
  | x :: l' => bind (body x s) (for_each l' body)
  end.

End Prog.

Import Prog.

Notation "'let*' x ':=' m 'in' k" := (bind m (λ x, k))
  (at level 10, x name, m at level 100, k at level 200, only parsing).

(** ** Strings of the command line *)

(** [s.split(sep)] for a one-character separator: never the empty list. *)
Fixpoint split (sep : ascii) (s : string) : list string :=
  match s with
  | EmptyString => [EmptyString]
  | String c s' =>
      if Ascii.eqb c sep then EmptyString :: split sep s'
      else match split sep s' with
           | [] => [String c EmptyString]
           | x :: xs => String c x :: xs
           end
  end.

(** [c in s] *)
Fixpoint has_char (c : ascii) (s : string) : bool :=
  match s with
  | EmptyString => false
  | String c' s' => Ascii.eqb c' c || has_char c s'
  end.

(** ** Data model *)

(** The three SQL templates of [update_quid_db], selected by [update_field]. *)
Inductive update_field := Value | NumRows | NumDevices.

Global Instance update_field_eq_dec : EqDecision update_field.
Proof. solve_decision. Defined.

(** Exceptions that [main] raises before it reaches [update]. *)
Inductive exn :=
  | InvalidEpiweek (ew : Z)    (* raised inside flu.check_epiweek *)
  | WrongOrder                 (* Exception('epiweeks in the wrong order') *)
  | AttributeError.            (* None.lower() *)

Inductive outcome := Returned | Raised (e : exn).

(** Parsed command line ([argparse] itself is outside the model). *)
Record args := Args {
  arg_location : option string;
  arg_first : option Z;
  arg_last : option Z;
  arg_force_update : bool;
  arg_skip_email : bool
}.

(** ** What lives outside the file *)

(** A [quidel.QuidelData] object, as far as [update] uses one: [D] is the raw
    data set returned by [load_csv], [M] the measurement tuple. *)
Record QuidelData (D M : Type) := {
  need_update : bool;
  load_csv : D;
  prepare_measurements : D → bool → Z → gmap string (gmap Z M)
}.
Arguments need_update {D M} _.
Arguments load_csv {D M} _.
Arguments prepare_measurements {D M} _ _ _ _.

Class Environment := {
  (** numeric type of a series entry and of a metric column (a Python
      number; the program only stores it and compares it with 0) *)
  number : Type;
  (** [v == 0] *)
  is_zero : number → bool;
  (** what a column holds in a row created by an INSERT that does not name
      it *)
  column_default : update_field → number;
  (** [flu.add_epiweeks] and [flu.check_epiweek] of delphi.utils.epiweek;
      [check_epiweek ew = false] stands for the call raising *)
  add_epiweeks : Z → Z → Z;
  check_epiweek : Z → bool;
  (** [Locations.hhs_list] *)
  LOCATIONS : list string;
  (** [str.lower], the case mapping of Python strings *)
  str_lower : string → string;
  (** raw data set and measurement tuple of quidel.py *)
  RawData : Type;
  Measurement : Type;
  (** the constructor [quidel.QuidelData(path, load_email)] *)
  quidel_QuidelData : string → bool → QuidelData RawData Measurement;
  (** the number [measurement_to_ts] reads from a tuple for a given index *)
  derive : Z → Measurement → number
}.

(** ** The table and its statements *)

Section Quidel.

Context `{Environment}.

Record row := Row {
  location : string;
  epiweek : Z;
  value : number;
  num_rows : number;
  num_devices : number
}.

Definition col (f : update_field) (r : row) : number :=
  match f with
  | Value => value r
  | NumRows => num_rows r
  | NumDevices => num_devices r
  end.

Definition set_col (f : update_field) (v : number) (r : row) : row :=
  match f with
  | Value => Row (location r) (epiweek r) v (num_rows r) (num_devices r)
  | NumRows => Row (location r) (epiweek r) (value r) v (num_devices r)
  | NumDevices => Row (location r) (epiweek r) (value r) (num_rows r) v
  end.

Definition key (r : row) : string * Z := (location r, epiweek r).

(** The row created by [INSERT INTO quidel (location, epiweek, f) VALUES
    (loc, ew, v)]. *)
Definition new_row (f : update_field) (loc : string) (ew : Z) (v : number) : row :=
  set_col f v
    (Row loc ew (column_default Value) (column_default NumRows)
       (column_default NumDevices)).

(** Modelled from the spec: the unique key of the table on (location,
    epiweek) (the DDL of [quidel] is not under src/; spec 3 and 6: a store
    keyed by (location, epiweek) with create-or-update-single-column upsert).
    [INSERT INTO quidel (location, epiweek, f) VALUES (loc, ew, v)
     ON DUPLICATE KEY UPDATE f = v] then updates column [f] of the row that
    carries the key, and adds a new row when no row carries it. *)
Fixpoint upsert (f : update_field) (loc : string) (ew : Z) (v : number)
    (t : list row) : list row :=
  match t with
  | [] => [new_row f loc ew v]
  | r :: t' =>
      if decide (key r = (loc, ew)) then set_col f v r :: t'
      else r :: upsert f loc ew v t'
  end.

(** [SELECT max(epiweek) FROM quidel]: NULL on the empty table. *)
Fixpoint max_epiweek (t : list row) : option Z :=
  match t with
  | [] => None
  | r :: t' =>
      match max_epiweek t' with
      | None => Some (epiweek r)
      | Some m => Some (Z.max (epiweek r) m)
      end
  end.

(** [SELECT count(1) FROM quidel] *)
Definition count_rows (t : list row) : Z := Z.of_nat (length t).

(** ** The world: table, server clock and trace *)

Inductive statement :=
  | SelectWindow           (* SELECT max(epiweek), yearweek(now(), 6) *)
  | SelectCount            (* SELECT count(1) *)
  | Upsert (f : update_field) (loc : string) (ew : Z) (v : number).

Inductive message :=
  | NotUpdated                                   (* 'Data not updated, ...' *)
  | Checking (ew0 ew1 : Z)                       (* 'Checking epiweeks ...' *)
  | Missing (loc : string) (num_missing len : Z) (* ' [%s] missing %d/%d' *)
  | Inserted (inserted total_rows : Z).          (* 'Inserted %d/%d row(s)' *)

Inductive event :=
  | EvQuidelData (load_email : bool)    (* quidel.QuidelData(DATAPATH, ..) *)
  | EvLoadCsv                           (* qd.load_csv() *)
  | EvPrepare (use_hhs : bool) (start_weekday : Z)
  | EvConnect                           (* mysql.connector.connect(..) *)
  | EvExecute (s : statement)           (* cur.execute(..) *)
  | EvPrint (m : message)
  | EvCursorClose
  | EvCommit
  | EvClose.

Record world := World {
  quidel : list row;
  yearweek_now : Z;
  events : list event
}.

Definition emit (e : event) : prog world unit :=
  λ w, (tt, World (quidel w) (yearweek_now w) (events w ++ [e])).

Definition print (m : message) : prog world unit := emit (EvPrint m).

(** [cur.execute(sql, sql_data)]: the statement is recorded and acts on the
    table. *)
Definition execute_write (f : update_field) (loc : string) (ew : Z) (v : number)
  : prog world unit :=
  λ w, (tt, World (upsert f loc ew v (quidel w)) (yearweek_now w)
              (events w ++ [EvExecute (Upsert f loc ew v)])).

Definition execute_select_window : prog world (option Z * Z) :=
  λ w, ((max_epiweek (quidel w), yearweek_now w),
        World (quidel w) (yearweek_now w) (events w ++ [EvExecute SelectWindow])).

Definition get_num_rows : prog world Z :=
  λ w, (count_rows (quidel w),
        World (quidel w) (yearweek_now w) (events w ++ [EvExecute SelectCount])).

(** ** Collaborators *)

Definition DATAPATH : string := "/home/automation/quidel_data".

Definition in_bounds (startweek endweek : option Z) (ew : Z) : bool :=
  match startweek with None => true | Some s => s <=? ew end
  && match endweek with None => true | Some e => ew <=? e end.

(** Modelled from the spec: [quidel.measurement_to_ts] (quidel.py is not under
    src/).  For every location of the measurement mapping, the entries whose
    epiweek lies in the inclusive bound (open on either end if unbounded) are
    kept and projected to a number; locations absent from the mapping are
    omitted and nothing is filled in. *)
Definition measurement_to_ts (m : gmap string (gmap Z Measurement)) (index : Z)
    (startweek endweek : option Z) : gmap string (gmap Z number) :=
  (λ per_ew : gmap Z Measurement,
     derive index <$>
       filter (λ p : Z * Measurement, in_bounds startweek endweek p.1 = true) per_ew)
  <$> m.

(** ** The program *)

(** [sorted(d.keys())] *)
Definition sorted_keys (d : gmap Z number) : list Z :=
  merge_sort Z.le (map_to_list d).*1.

Section update.

Variable locations : list string.
Variables first last : option Z.

(** The window computed at the head of [update_quid_db] (lines 92-96) from
    the row returned by the SELECT. *)
Definition resolve_window (max_ew : option Z) (now_ew : Z) : Z * Z :=
  let ew0 :=
    match max_ew with None => 200401 | Some m => add_epiweeks m (-4) end in
  let ew1 := now_ew in
  let ew0 := match first with None => ew0 | Some f => f end in
  let ew1 := match last with None => ew1 | Some l => l end in
  (ew0, ew1).

(** Body of [for ew in ews]; the state is (total_rows, num_missing). *)
Definition write_epiweek (update_field : update_field) (location : string)
    (series : gmap Z number) (ew : Z) (st : Z * Z) : prog world (Z * Z) :=
  match series !! ew with
  | None => ret st                     (* KeyError: ew is a key of series *)
  | Some v =>
      let* _ := execute_write update_field location ew v in
      ret (st.1 + 1, if is_zero v then st.2 + 1 else st.2)
  end.

(** Body of [for location in locations]; the state is total_rows. *)
Definition write_location (qd_ts : gmap string (gmap Z number))
    (update_field : update_field) (location : string) (total_rows : Z)
  : prog world Z :=
  match qd_ts !! location with
  | None => ret total_rows             (* continue *)
  | Some series =>
      let ews := sorted_keys series in
      let* st :=
        for_each ews (write_epiweek update_field location series)
          (total_rows, 0) in
      let* _ :=
        if 0 <? st.2
        then print (Missing location st.2 (Z.of_nat (length ews)))
        else ret tt in
      ret st.1
  end.

Definition update_quid_db (qd_ts : gmap string (gmap Z number))
    (update_field : update_field) : prog world unit :=
  let* r := execute_select_window in
  let win := resolve_window r.1 r.2 in
  let* _ := print (Checking win.1 win.2) in
  let* rows_before := get_num_rows in
  let* total_rows :=
    for_each locations (write_location qd_ts update_field) 0 in
  let* rows_after := get_num_rows in
  print (Inserted (rows_after - rows_before) total_rows).

(** [update], along the run in which no call of the collaborator or of
    the database raises. *)
Definition update (force_update load_email : bool) : prog world unit :=
  let* _ := emit (EvQuidelData load_email) in
  let qd := quidel_QuidelData DATAPATH load_email in
  if negb (need_update qd) && negb force_update then print NotUpdated
  else
    let* _ := emit EvLoadCsv in
    let qd_data := load_csv qd in
    let start_weekday := 4 in
    let* _ := emit (EvPrepare true start_weekday) in
    let qd_measurements :=
      prepare_measurements qd qd_data true start_weekday in
    let* _ := emit (EvPrepare false start_weekday) in
    let qd_m_atoms := prepare_measurements qd qd_data false start_weekday in
    let qd_measurements := qd_m_atoms ∪ qd_measurements in
    let qd_ts_values := measurement_to_ts qd_measurements 7 first last in
    let qd_ts_numrows := measurement_to_ts qd_measurements 3 first last in
    let qd_ts_numdevices := measurement_to_ts qd_measurements 8 first last in
    let* _ := emit EvConnect in
    let* _ := update_quid_db qd_ts_values Value in
    let* _ := update_quid_db qd_ts_numrows NumRows in
    let* _ := update_quid_db qd_ts_numdevices NumDevices in
    let* _ := emit EvCursorClose in
    let* _ := emit EvCommit in
    emit EvClose.

End update.

(** [flu.check_epiweek(ew)] when the override is present. *)
Definition check_override (o : option Z) : option exn :=
  match o with
  | Some ew => if check_epiweek ew then None else Some (InvalidEpiweek ew)
  | None => None
  end.

(** [first is not None and last is not None and first > last] *)
Definition wrong_order (first last : option Z) : bool :=
  match first, last with
  | Some f, Some l => l <? f
  | _, _ => false
  end.

(** [main] up to the call of [update] at line 190, and its return when
    [update] returns; an exception of [update] would leave [main] there. *)
Definition main (a : args) : prog world outcome :=
  let first := arg_first a in
  let last := arg_last a in
  let force_update := arg_force_update a in
  let load_email := negb (arg_skip_email a) in
  match check_override first with
  | Some e => ret (Raised e)
  | None =>
  match check_override last with
  | Some e => ret (Raised e)
  | None =>
  if wrong_order first last then ret (Raised WrongOrder)
  else
    match arg_location a with
    | None => ret (Raised AttributeError)
    | Some loc =>
        let locations :=
          if String.eqb (str_lower loc) "all" then LOCATIONS
          else split "," (str_lower loc) in
        let* _ := update locations first last force_update load_email in
        ret Returned
    end
  end end.

(** ** Reading the table and the trace *)

(** The row that carries a key: the one an upsert on that key updates. *)
Fixpoint select_row (loc : string) (ew : Z) (t : list row) : option row :=
  match t with
  | [] => None
  | r :: t' =>
      if decide (key r = (loc, ew)) then Some r else select_row loc ew t'
  end.

(** The unique key of the table on (location, epiweek). *)
Definition unique_keys (t : list row) : Prop := NoDup (key <$> t).

(** [m] is the greatest epiweek of the table. *)
Definition greatest_epiweek (m : Z) (t : list row) : Prop :=
  (∃ r, r ∈ t ∧ epiweek r = m) ∧ ∀ r, r ∈ t → epiweek r ≤ m.

(** The triples one iteration of [for location in locations] sends, in the
    order it sends them. *)
Definition location_writes (qd_ts : gmap string (gmap Z number))
    (location : string) : list (string * Z * number) :=
  match qd_ts !! location with
  | None => []
  | Some series =>
      omap (λ ew, (λ v, (location, ew, v)) <$> series !! ew)
        (sorted_keys series)
  end.

(** The triples of a whole pass. *)
Definition pass_writes (locations : list string)
    (qd_ts : gmap string (gmap Z number)) : list (string * Z * number) :=
  locations ≫= location_writes qd_ts.

Definition apply_writes (f : update_field) (ws : list (string * Z * number))
    (t : list row) : list row :=
  foldl (λ t w, upsert f w.1.1 w.1.2 w.2 t) t ws.

(** [loc], [ew] is a key a pass over [qd_ts] for [locations] writes. *)
Definition written (locations : list string)
    (qd_ts : gmap string (gmap Z number)) (loc : string) (ew : Z) : Prop :=
  loc ∈ locations ∧
  ∃ series, qd_ts !! loc = Some series ∧ is_Some (series !! ew).

(** The row of the key of [w] carries the value of [w] in column [f]. *)
Definition holds (f : update_field) (w : string * Z * number)
    (t : list row) : Prop :=
  ∃ r, select_row w.1.1 w.1.2 t = Some r ∧ col f r = w.2.

(** No two triples give one key two values. *)
Definition functional (ws : list (string * Z * number)) : Prop :=
  ∀ w w', w ∈ ws → w' ∈ ws → w.1 = w'.1 → w.2 = w'.2.

(** The keys that a list of triples creates in a table. *)
Definition new_keys (ws : list (string * Z * number)) (t : list row)
  : gset (string * Z) :=
  list_to_set ws.*1 ∖ list_to_set (key <$> t).

Definition upsert_event (f : update_field) (w : string * Z * number) : event :=
  EvExecute (Upsert f w.1.1 w.1.2 w.2).

(** The number of triples whose value is zero. *)
Definition zeros (ws : list (string * Z * number)) : Z :=
  foldr (λ w n, if is_zero w.2 then n + 1 else n) 0 ws.

(** The trace of one iteration of [for location in locations]. *)
Definition location_events (f : update_field)
    (qd_ts : gmap string (gmap Z number)) (location : string) : list event :=
  match qd_ts !! location with
  | None => []
  | Some series =>
      let ws := location_writes qd_ts location in
      (upsert_event f <$> ws) ++
      (if 0 <? zeros ws
       then [EvPrint
               (Missing location (zeros ws)
                  (Z.of_nat (length (sorted_keys series))))]
       else [])
  end.

(** The measurement mapping a run derives its three series from: the state
    entries copied over the regional ones. *)
Definition run_measurements (load_email : bool)
  : gmap string (gmap Z Measurement) :=
  let qd := quidel_QuidelData DATAPATH load_email in
  prepare_measurements qd (load_csv qd) false 4
  ∪ prepare_measurements qd (load_csv qd) true 4.

(** The table after the three passes of a run. *)
Definition reconcile (locations : list string) (first last : option Z)
    (load_email : bool) (t : list row) : list row :=
  let m := run_measurements load_email in
  apply_writes NumDevices
    (pass_writes locations (measurement_to_ts m 8 first last))
    (apply_writes NumRows
       (pass_writes locations (measurement_to_ts m 3 first last))
       (apply_writes Value
          (pass_writes locations (measurement_to_ts m 7 first last)) t)).

(** The events a computation adds to the trace. *)
Definition issued {A} (p : prog world A) (w : world) : list event :=
  drop (length (events w)) (events (p w).2).

Definition is_upsert (e : event) : bool :=
  match e with EvExecute (Upsert _ _ _ _) => true | _ => false end.

(** Statements and calls that reach the database. *)
Definition touches_storage (e : event) : bool :=
  match e with
  | EvConnect | EvExecute _ | EvCursorClose | EvCommit | EvClose => true
  | _ => false
  end.

(** The exceptions of the sanity check of [main]. *)
Definition is_configuration_error (e : exn) : bool :=
  match e with
  | InvalidEpiweek _ | WrongOrder => true
  | AttributeError => false
  end.

(** The tuple index [update] reads the series of each column from (lines
    73-77 and 153-155). *)
Definition field_index (f : update_field) : Z :=
  match f with
  | Value => 7
  | NumRows => 3
  | NumDevices => 8
  end.



(** Calls that load or process the raw data. *)
Definition processes_data (e : event) : bool :=
  match e with
  | EvQuidelData _ | EvLoadCsv | EvPrepare _ _ => true
  | _ => false
  end.

End Quidel.

(** ** A concrete environment, to run the program on *)

Module Sample.

(** Stand-in for [flu.add_epiweeks] that counts 52 weeks in every year. *)
Definition add_epiweeks52 (ew i : Z) : Z :=
  let n := (ew / 100) * 52 + (ew `mod` 100 - 1) + i in
  (n / 52) * 100 + n `mod` 52 + 1.

(** Stand-in for [str.lower]: exact on ASCII strings, where it maps A-Z to
    a-z; other bytes are kept. *)
Definition lower_ascii (c : ascii) : ascii :=
  let n := nat_of_ascii c in
  if ((65 <=? n) && (n <=? 90))%nat then ascii_of_nat (n + 32) else c.

Fixpoint lower (s : string) : string :=
  match s with
  | EmptyString => EmptyString
  | String c s' => String (lower_ascii c) (lower s')
  end.

(** Stand-in for [flu.check_epiweek]: the week number lies in 1..53. *)
Definition check_epiweek53 (ew : Z) : bool :=
  (1 <=? ew `mod` 100) && (ew `mod` 100 <=? 53).

Definition hhs_list : list string :=
  ["hhs1"; "hhs2"; "hhs3"; "hhs4"; "hhs5";
   "hhs6"; "hhs7"; "hhs8"; "hhs9"; "hhs10"].

Definition collaborator (fresh : bool)
    (hhs states : gmap string (gmap Z (list Z))) : QuidelData unit (list Z) :=
  {| need_update := fresh;
     load_csv := tt;
     prepare_measurements := λ _ use_hhs _, if use_hhs then hhs else states |}.

(** Numbers are integers, unnamed columns default to 0, and a measurement
    tuple is a list read by position. *)
Definition env (fresh : bool) (hhs states : gmap string (gmap Z (list Z)))
  : Environment :=
  {| number := Z;
     is_zero := λ v, v =? 0;
     column_default := λ _, 0;
     add_epiweeks := add_epiweeks52;
     check_epiweek := check_epiweek53;
     LOCATIONS := hhs_list;
     str_lower := lower;
     RawData := unit;
     Measurement := list Z;
     quidel_QuidelData := λ _ _, collaborator fresh hhs states;
     derive := λ index m, nth (Z.to_nat index) m 0 |}.

(** A tuple with its row count (3), ratio (7) and device count (8). *)
Definition tuple (rows ratio devices : Z) : list Z :=
  [0; 0; 0; rows; 0; 0; 0; ratio; devices].

Definition hhs : gmap string (gmap Z (list Z)) :=
  {[ "hhs1" := {[ 201601 := tuple 10 2 5; 201749 := tuple 8 4 2 ]};
     "hhs3" := {[ 201749 := tuple 9 3 3 ]} ]}.

(** The collaborator has new data ([fresh]) or has none ([stale]). *)
Definition fresh : Environment := env true hhs ∅.
Definition stale : Environment := env false hhs ∅.

(** An empty table in epiweek 201750. *)
Definition w0 : world (H := fresh) := World [] 201750 [].
Definition w0_stale : world (H := stale) := World [] 201750 [].

(** A table that already has three weeks of hhs1, and a [num_rows] series
    with eight weeks of hhs1 and one of hhs3. *)
Definition w3 : world (H := fresh) :=
  World [@Row fresh "hhs1" 201701 7 0 0; @Row fresh "hhs1" 201702 7 0 0;
         @Row fresh "hhs1" 201703 7 0 0] 201750 [].

(** A series that has hhs1 and hhs3. *)
Definition ts13 : gmap string (gmap Z Z) :=
  {[ "hhs1" := {[ 201701 := 11 ]}; "hhs3" := {[ 201701 := 31 ]} ]}.

Definition ts8 : gmap string (gmap Z Z) :=
  {[ "hhs1" := {[ 201701 := 11; 201702 := 12; 201703 := 13; 201704 := 14;
                  201705 := 15; 201706 := 16; 201707 := 17; 201708 := 18 ]};
     "hhs3" := {[ 201701 := 31 ]} ]}.

(** The hhs1 entries of [ts13], and the [num_rows] series of hhs1 in [hhs]. *)
Definition ts13_hhs1 : gmap Z Z := {[ 201701 := 11 ]}.
Definition hhs1_rows : gmap Z Z := {[ 201601 := 10; 201749 := 8 ]}.

(** Command lines: overrides in the wrong order, no [--location], and
    both. *)
Definition wrong_order_args : args :=
  Args (Some "all") (Some 200520) (Some 200510) false false.



End Sample.

(** * Properties *)

Section Table.

Context `{Environment}.

Implicit Types (t : list row) (r : row) (f g : update_field) (v : number).

Lemma key_set_col f v r : key (set_col f v r) = key r.
Proof. by destruct f. Qed.

Lemma col_set_col_eq f v r : col f (set_col f v r) = v.
Proof. by destruct f. Qed.

Lemma col_set_col_ne f g v r : g ≠ f → col g (set_col f v r) = col g r.
Proof. by destruct f, g. Qed.

Lemma set_col_id f r : set_col f (col f r) r = r.
Proof. by destruct f, r. Qed.

Lemma key_new_row f loc ew v : key (new_row f loc ew v) = (loc, ew).
Proof. by destruct f. Qed.

Lemma select_row_None loc ew t :
  select_row loc ew t = None ↔ (loc, ew) ∉ key <$> t.
Proof.
  induction t as [|r t IH]; simpl.
  - split; [intros _; apply not_elem_of_nil | done].
  - case_decide as Hk.
    + split; [done | intros []; rewrite Hk; apply list_elem_of_here].
    + rewrite IH, not_elem_of_cons. split; [by split | by intros []].
Qed.

Lemma select_row_Some loc ew t r :
  select_row loc ew t = Some r → r ∈ t ∧ key r = (loc, ew).
Proof.
  induction t as [|r' t IH]; simpl; [done|].
  case_decide.
  - intros [= <-]. split; [apply list_elem_of_here | done].
  - intros Hs. destruct (IH Hs). split; [by apply list_elem_of_further | done].
Qed.

(** An upsert on a key the table has keeps the keys; on a fresh key it adds
    the key at the end. *)
Lemma upsert_keys f loc ew v t :
  key <$> upsert f loc ew v t =
    if decide ((loc, ew) ∈ key <$> t) then key <$> t
    else (key <$> t) ++ [(loc, ew)].
Proof.
  induction t as [|r t IH]; csimpl.
  - by rewrite key_new_row.
  - destruct (decide (key r = (loc, ew))) as [Hk|Hk]; csimpl.
    + rewrite key_set_col, decide_True; [done|].
      rewrite Hk. apply list_elem_of_here.
    + rewrite IH. destruct (decide ((loc, ew) ∈ key <$> t)) as [Hin|Hin].
      * rewrite decide_True; [done|]. by apply list_elem_of_further.
      * rewrite decide_False; [done|]. apply not_elem_of_cons. by split.
Qed.

Lemma upsert_unique_keys f loc ew v t :
  unique_keys t → unique_keys (upsert f loc ew v t).
Proof.
  unfold unique_keys. intros Hnd. rewrite upsert_keys. case_decide as Hin; [done|].
  apply NoDup_app. split_and!; [done | | apply NoDup_singleton].
  intros k Hk Hk'. apply list_elem_of_singleton in Hk'. by subst.
Qed.

(** Every row stays where it is, keeps its key and every column but [f];
    a row with another key is not touched at all. *)
Lemma upsert_lookup f loc ew v t i r :
  t !! i = Some r →
  ∃ r', upsert f loc ew v t !! i = Some r' ∧ key r' = key r ∧
        (∀ g, g ≠ f → col g r' = col g r) ∧
        (key r ≠ (loc, ew) → r' = r).
Proof.
  revert i. induction t as [|r0 t IH]; intros i Hi; [done|]. simpl.
  destruct (decide (key r0 = (loc, ew))) as [Hk|Hk].
  - destruct i as [|i]; simpl in *.
    + injection Hi as ->. exists (set_col f v r). split_and!; [done | apply key_set_col | | done].
      intros g Hg. by apply col_set_col_ne.
    + exists r. naive_solver.
  - destruct i as [|i]; simpl in *.
    + exists r. naive_solver.
    + by apply IH.
Qed.

Lemma upsert_length f loc ew v t :
  length (upsert f loc ew v t) =
    if decide ((loc, ew) ∈ key <$> t) then length t else S (length t).
Proof.
  pose proof (f_equal length (upsert_keys f loc ew v t)) as Hl.
  rewrite length_fmap in Hl. rewrite Hl.
  case_decide; [by rewrite length_fmap|].
  rewrite length_app, length_fmap. simpl. lia.
Qed.

(** After an upsert the row of the key carries the value. *)
Lemma upsert_select_eq f loc ew v t :
  ∃ r, select_row loc ew (upsert f loc ew v t) = Some r ∧ col f r = v.
Proof.
  induction t as [|r0 t IH]; simpl.
  - rewrite decide_True by apply key_new_row.
    eexists; split; [done|]. apply col_set_col_eq.
  - destruct (decide (key r0 = (loc, ew))) as [Hk|Hk]; simpl.
    + rewrite decide_True by (by rewrite key_set_col).
      eexists; split; [done|]. apply col_set_col_eq.
    + by rewrite decide_False.
Qed.

(** What another upsert leaves of the row of a key. *)
Lemma upsert_select_other f loc ew v t g loc' ew' r :
  select_row loc' ew' t = Some r →
  ∃ r', select_row loc' ew' (upsert f loc ew v t) = Some r' ∧
        (g ≠ f ∨ (loc', ew') ≠ (loc, ew) → col g r' = col g r).
Proof.
  induction t as [|r0 t IH]; simpl; [done|].
  destruct (decide (key r0 = (loc', ew'))) as [Hk'|Hk'].
  - intros [= ->]. destruct (decide (key r = (loc, ew))) as [Hk|Hk]; simpl.
    + rewrite decide_True by (by rewrite key_set_col).
      eexists; split; [done|]. intros [Hg|Hne].
      * by apply col_set_col_ne.
      * congruence.
    + rewrite decide_True by done. eauto.
  - intros Hs. destruct (decide (key r0 = (loc, ew))) as [Hk|Hk]; simpl.
    + rewrite decide_False by (by rewrite key_set_col). eauto.
    + rewrite decide_False by done. by apply IH.
Qed.

(** Writing the value the row already carries changes nothing. *)
Lemma upsert_noop f loc ew v t r :
  select_row loc ew t = Some r → col f r = v → upsert f loc ew v t = t.
Proof.
  induction t as [|r0 t IH]; simpl; [done|].
  case_decide.
  - intros [= ->] <-. by rewrite set_col_id.
  - intros Hs Hc. f_equal. by apply IH.
Qed.

End Table.

Section Writes.

Context `{Environment}.

Implicit Types (t : list row) (r : row) (f g : update_field) (v : number).
Implicit Types (w : string * Z * number) (ws : list (string * Z * number)).

Lemma apply_writes_cons f w ws t :
  apply_writes f (w :: ws) t = apply_writes f ws (upsert f w.1.1 w.1.2 w.2 t).
Proof. done. Qed.

Lemma apply_writes_app f ws1 ws2 t :
  apply_writes f (ws1 ++ ws2) t = apply_writes f ws2 (apply_writes f ws1 t).
Proof. apply foldl_app. Qed.

Lemma holds_upsert_same f w t : holds f w (upsert f w.1.1 w.1.2 w.2 t).
Proof. apply upsert_select_eq. Qed.

Lemma holds_upsert_other f g w w' t :
  g ≠ f ∨ w.1 ≠ w'.1 →
  holds g w t → holds g w (upsert f w'.1.1 w'.1.2 w'.2 t).
Proof.
  intros Hne (r & Hs & Hc).
  destruct (upsert_select_other f w'.1.1 w'.1.2 w'.2 t g _ _ _ Hs)
    as (r' & Hs' & Hc').
  exists r'. split; [done|]. rewrite Hc'; [done|].
  destruct Hne as [?|Hk]; [by left | right].
  by destruct w as [[??]?], w' as [[??]?].
Qed.

(** A pass on one column keeps what holds of another column. *)
Lemma holds_apply_writes_other f g w ws t :
  g ≠ f → holds g w t → holds g w (apply_writes f ws t).
Proof.
  intros Hne. revert t. induction ws as [|w' ws IH]; intros t Hh; [done|].
  rewrite apply_writes_cons. apply IH, holds_upsert_other; auto.
Qed.

Lemma holds_apply_writes_aux f pre ws t :
  functional (pre ++ ws) →
  (∀ w, w ∈ pre → holds f w t) →
  ∀ w, w ∈ pre ++ ws → holds f w (apply_writes f ws t).
Proof.
  revert pre t. induction ws as [|w' ws IH]; intros pre t Hfun Hpre w Hw.
  - rewrite app_nil_r in Hw. by apply Hpre.
  - rewrite apply_writes_cons. rewrite (cons_middle w' pre ws), (assoc_L (++)) in Hw, Hfun.
    apply (IH (pre ++ [w'])); [done | | done].
    intros w0 [Hw0| ->%list_elem_of_singleton]%elem_of_app.
    + destruct (decide (w0.1 = w'.1)) as [Hk|Hk].
      * assert (w0.2 = w'.2) as Hv.
        { apply Hfun; [| | done]; rewrite !elem_of_app, ?list_elem_of_singleton; auto. }
        assert (w0 = w') as -> by (by destruct w0 as [[??]?], w' as [[??]?]; simplify_eq/=).
        apply holds_upsert_same.
      * apply holds_upsert_other; auto.
    + apply holds_upsert_same.
Qed.

(** After a pass every triple of the pass holds. *)
Lemma holds_apply_writes f ws t w :
  functional ws → w ∈ ws → holds f w (apply_writes f ws t).
Proof.
  intros Hfun Hw. apply (holds_apply_writes_aux f [] ws t); [done | | done].
  intros ? []%elem_of_nil.
Qed.

(** A pass whose triples all hold changes nothing. *)
Lemma apply_writes_noop f ws t :
  (∀ w, w ∈ ws → holds f w t) → apply_writes f ws t = t.
Proof.
  induction ws as [|w ws IH]; intros Hh; [done|].
  rewrite apply_writes_cons.
  destruct (Hh w) as (r & Hs & Hc); [apply list_elem_of_here|].
  rewrite (upsert_noop _ _ _ _ _ _ Hs Hc). apply IH.
  intros w' Hw'. by apply Hh, list_elem_of_further.
Qed.

Lemma apply_writes_unique_keys f ws t :
  unique_keys t → unique_keys (apply_writes f ws t).
Proof.
  revert t. induction ws as [|w ws IH]; intros t Hu; [done|].
  rewrite apply_writes_cons. by apply IH, upsert_unique_keys.
Qed.

(** Rows keep their place, their key and every other column through a pass;
    a row whose key is not written is not touched. *)
Lemma apply_writes_lookup f ws t i r :
  t !! i = Some r →
  ∃ r', apply_writes f ws t !! i = Some r' ∧ key r' = key r ∧
        (∀ g, g ≠ f → col g r' = col g r) ∧
        (key r ∉ ws.*1 → r' = r).
Proof.
  revert t r. induction ws as [|w ws IH]; intros t r Hi.
  - exists r. by split_and!.
  - rewrite apply_writes_cons.
    destruct (upsert_lookup f w.1.1 w.1.2 w.2 t i r Hi)
      as (r1 & Hi1 & Hk1 & Hc1 & Hn1).
    destruct (IH _ _ Hi1) as (r2 & Hi2 & Hk2 & Hc2 & Hn2).
    exists r2. split_and!; [done | congruence | |].
    + intros g Hg. rewrite Hc2, Hc1; done.
    + rewrite fmap_cons, not_elem_of_cons. intros [Hne Hnin].
      rewrite Hn2, Hn1; [done | | ].
      * by destruct w as [[??]?].
      * by rewrite Hk1.
Qed.

(** The table grows by the keys of the pass it did not have. *)
Lemma apply_writes_length f ws t :
  length (apply_writes f ws t) = (length t + size (new_keys ws t))%nat.
Proof.
  unfold new_keys. revert t. induction ws as [|w ws IH]; intros t.
  - simpl. replace (∅ ∖ _) with (∅ : gset (string * Z)) by set_solver.
    rewrite size_empty. lia.
  - rewrite apply_writes_cons, IH, upsert_length, upsert_keys.
    rewrite fmap_cons. simpl list_to_set.
    destruct w as [[loc ew] v]; simpl.
    destruct (decide ((loc, ew) ∈ key <$> t)) as [Hin|Hin].
    + f_equal. f_equal. set_solver.
    + rewrite list_to_set_app_L. simpl list_to_set.
      replace (({[(loc, ew)]} ∪ list_to_set ws.*1) ∖ list_to_set (key <$> t))
        with ({[(loc, ew)]} ∪
              list_to_set ws.*1 ∖ (list_to_set (key <$> t) ∪ ({[(loc, ew)]} ∪ ∅))
              : gset (string * Z)).
      * match goal with |- context [size ({[ ?k ]} ∪ ?K)] =>
          rewrite (size_union {[ k ]} K) by set_solver
        end.
        rewrite size_singleton. lia.
      * apply set_eq. intros k. set_unfold.
        destruct (decide (k = (loc, ew))) as [->|]; naive_solver.
Qed.

End Writes.

Section Passes.

Context `{Environment}.

Implicit Types (t : list row) (f g : update_field) (w : world).
Implicit Types (qd_ts : gmap string (gmap Z number)).

Lemma for_each_cons {W A S} (x : A) (l : list A) (body : A → S → prog W S)
    (s : S) (w : W) :
  for_each (x :: l) body s w = for_each l body (body x s w).1 (body x s w).2.
Proof. done. Qed.

(** The inner loop sends the triples of the series in order and tallies
    them. *)
Lemma for_each_write_epiweek f loc (series : gmap Z number) ews st w :
  let ws := omap (λ ew, (λ v, (loc, ew, v)) <$> series !! ew) ews in
  for_each ews (write_epiweek f loc series) st w =
    ((st.1 + Z.of_nat (length ws), st.2 + zeros ws),
     World (apply_writes f ws (quidel w)) (yearweek_now w)
       (events w ++ (upsert_event f <$> ws))).
Proof.
  revert st w. induction ews as [|ew ews IH]; intros st w.
  - csimpl. rewrite app_nil_r, !Z.add_0_r. by destruct st, w.
  - rewrite for_each_cons, IH. unfold write_epiweek. csimpl.
    destruct (series !! ew) as [v|]; csimpl; [|done].
    unfold bind, ret, execute_write; simpl.
    rewrite <-(assoc_L (++)). simpl.
    do 2 f_equal; [lia | destruct (is_zero v); lia].
Qed.

Lemma write_location_spec qd_ts f loc total w :
  write_location qd_ts f loc total w =
    (total + Z.of_nat (length (location_writes qd_ts loc)),
     World (apply_writes f (location_writes qd_ts loc) (quidel w))
       (yearweek_now w) (events w ++ location_events f qd_ts loc)).
Proof.
  unfold write_location, location_events, location_writes.
  destruct (qd_ts !! loc) as [series|]; simpl.
  - unfold bind at 1. rewrite for_each_write_epiweek. simpl.
    unfold bind. simpl. rewrite Z.add_0_l.
    case_match; simpl; [|by rewrite app_nil_r].
    by rewrite <-(assoc_L (++)).
  - rewrite app_nil_r, Z.add_0_r. by destruct w.
Qed.

Lemma for_each_write_location qd_ts f locations total w :
  for_each locations (write_location qd_ts f) total w =
    (total + Z.of_nat (length (pass_writes locations qd_ts)),
     World (apply_writes f (pass_writes locations qd_ts) (quidel w))
       (yearweek_now w)
       (events w ++ (locations ≫= location_events f qd_ts))).
Proof.
  unfold pass_writes. revert total w.
  induction locations as [|loc locations IH]; intros total w.
  - csimpl. rewrite app_nil_r, Z.add_0_r. by destruct w.
  - rewrite for_each_cons, write_location_spec, IH. csimpl.
    rewrite apply_writes_app, length_app, <-(assoc_L (++)).
    f_equal. lia.
Qed.

(** What one pass does to the world. *)
Lemma update_quid_db_spec locations first last qd_ts f w :
  let t' := apply_writes f (pass_writes locations qd_ts) (quidel w) in
  let win := resolve_window first last (max_epiweek (quidel w)) (yearweek_now w) in
  update_quid_db locations first last qd_ts f w =
    (tt,
     World t' (yearweek_now w)
       (events w ++
        [EvExecute SelectWindow; EvPrint (Checking win.1 win.2);
         EvExecute SelectCount] ++
        (locations ≫= location_events f qd_ts) ++
        [EvExecute SelectCount;
         EvPrint (Inserted (count_rows t' - count_rows (quidel w))
                    (Z.of_nat (length (pass_writes locations qd_ts))))])).
Proof.
  unfold update_quid_db, bind. simpl.
  rewrite for_each_write_location. simpl.
  unfold print, emit. simpl.
  by rewrite <-!(assoc_L (++)), Z.add_0_l.
Qed.

Lemma update_quid_db_quidel locations first last qd_ts f w :
  quidel (update_quid_db locations first last qd_ts f w).2 =
    apply_writes f (pass_writes locations qd_ts) (quidel w).
Proof. by rewrite update_quid_db_spec. Qed.

Lemma update_quid_db_clock locations first last qd_ts f w :
  yearweek_now (update_quid_db locations first last qd_ts f w).2 =
    yearweek_now w.
Proof. by rewrite update_quid_db_spec. Qed.

End Passes.

Section Series.

Context `{Environment}.

Implicit Types (t : list row) (f g : update_field) (w : world).
Implicit Types (qd_ts : gmap string (gmap Z number)).

Lemma elem_of_sorted_keys (series : gmap Z number) ew :
  ew ∈ sorted_keys series ↔ is_Some (series !! ew).
Proof.
  unfold sorted_keys. rewrite merge_sort_Permutation, list_elem_of_fmap.
  split.
  - intros ([ew' v] & -> & Hin). apply elem_of_map_to_list in Hin. by exists v.
  - intros [v Hv]. exists (ew, v). split; [done|]. by apply elem_of_map_to_list.
Qed.

Lemma elem_of_location_writes qd_ts loc (x : string * Z * number) :
  x ∈ location_writes qd_ts loc ↔
    x.1.1 = loc ∧ ∃ series, qd_ts !! loc = Some series ∧ series !! x.1.2 = Some x.2.
Proof.
  unfold location_writes. destruct x as [[loc' ew] v]; simpl.
  destruct (qd_ts !! loc) as [series|].
  - rewrite list_elem_of_omap. split.
    + intros (ew' & _ & Hx). destruct (series !! ew') as [v'|] eqn:Hl; [|done].
      injection Hx as <- <- <-. eauto.
    + intros [-> (series' & [= <-] & Hl)]. exists ew. split.
      * apply elem_of_sorted_keys. eauto.
      * by rewrite Hl.
  - rewrite elem_of_nil. naive_solver.
Qed.

(** The triples of a pass: those of the series whose location is requested. *)
Lemma elem_of_pass_writes locations qd_ts (x : string * Z * number) :
  x ∈ pass_writes locations qd_ts ↔
    x.1.1 ∈ locations ∧
    ∃ series, qd_ts !! x.1.1 = Some series ∧ series !! x.1.2 = Some x.2.
Proof.
  unfold pass_writes. rewrite list_elem_of_bind. split.
  - intros (loc & [<- Hs]%elem_of_location_writes & Hloc). eauto.
  - intros [Hloc Hs]. exists x.1.1. split; [|done].
    by apply elem_of_location_writes.
Qed.

Lemma functional_pass_writes locations qd_ts :
  functional (pass_writes locations qd_ts).
Proof.
  intros x x' (_ & s & Hs & Hv)%elem_of_pass_writes
    (_ & s' & Hs' & Hv')%elem_of_pass_writes Hk.
  rewrite Hk in Hs, Hv. congruence.
Qed.

Lemma elem_of_pass_keys locations qd_ts (k : string * Z) :
  k ∈ (pass_writes locations qd_ts).*1 ↔ written locations qd_ts k.1 k.2.
Proof.
  unfold written. rewrite list_elem_of_fmap. split.
  - intros (x & -> & (Hloc & s & Hs & Hv)%elem_of_pass_writes). eauto.
  - intros (Hloc & s & Hs & v & Hv). exists (k, v). split; [done|].
    apply elem_of_pass_writes. eauto.
Qed.

Lemma elem_of_new_keys locations qd_ts t (k : string * Z) :
  k ∈ new_keys (pass_writes locations qd_ts) t ↔
    written locations qd_ts k.1 k.2 ∧ k ∉ key <$> t.
Proof.
  unfold new_keys.
  by rewrite elem_of_difference, !elem_of_list_to_set, elem_of_pass_keys.
Qed.

(** The upserts in the trace of one location, and of a pass. *)
Lemma filter_upsert_location_events f qd_ts loc :
  filter (λ e, is_upsert e = true) (location_events f qd_ts loc) =
    upsert_event f <$> location_writes qd_ts loc.
Proof.
  unfold location_events, location_writes.
  destruct (qd_ts !! loc) as [series|]; [|done].
  rewrite filter_app.
  match goal with |- _ ++ ?l = _ => replace l with (@nil event) end.
  - rewrite app_nil_r. generalize (sorted_keys series) as ews.
    induction ews as [|ew ews IH]; [done|]. csimpl.
    destruct (series !! ew); csimpl; [|done].
    rewrite filter_cons_True by done. by rewrite IH.
  - by case_match.
Qed.

Lemma filter_upsert_pass_events f qd_ts locations :
  filter (λ e, is_upsert e = true) (locations ≫= location_events f qd_ts) =
    upsert_event f <$> pass_writes locations qd_ts.
Proof.
  unfold pass_writes. induction locations as [|loc locations IH]; [done|].
  csimpl. by rewrite filter_app, fmap_app, IH, filter_upsert_location_events.
Qed.

Lemma issued_app {A} (p : prog world A) w (new : list event) :
  events (p w).2 = events w ++ new → issued p w = new.
Proof. unfold issued. intros ->. apply drop_app_length. Qed.

Lemma issued_update_quid_db locations first last qd_ts f w :
  let t' := apply_writes f (pass_writes locations qd_ts) (quidel w) in
  let win := resolve_window first last (max_epiweek (quidel w)) (yearweek_now w) in
  issued (update_quid_db locations first last qd_ts f) w =
    [EvExecute SelectWindow; EvPrint (Checking win.1 win.2);
     EvExecute SelectCount] ++
    (locations ≫= location_events f qd_ts) ++
    [EvExecute SelectCount;
     EvPrint (Inserted (count_rows t' - count_rows (quidel w))
                (Z.of_nat (length (pass_writes locations qd_ts))))].
Proof. intros t' win. apply issued_app. by rewrite update_quid_db_spec. Qed.

Lemma filter_upsert_issued locations first last qd_ts f w :
  filter (λ e, is_upsert e = true)
    (issued (update_quid_db locations first last qd_ts f) w) =
    upsert_event f <$> pass_writes locations qd_ts.
Proof.
  rewrite issued_update_quid_db. simpl.
  rewrite !filter_cons_False by done.
  rewrite filter_app, filter_upsert_pass_events.
  rewrite !filter_cons_False by done. apply app_nil_r.
Qed.

(** The table has a greatest epiweek exactly when it is not empty. *)
Lemma max_epiweek_None t : max_epiweek t = None ↔ t = [].
Proof.
  destruct t as [|r t]; simpl; [done|]. by destruct (max_epiweek t).
Qed.

Lemma max_epiweek_Some t m :
  max_epiweek t = Some m → greatest_epiweek m t.
Proof.
  revert m. induction t as [|r t IH]; intros m; simpl; [done|].
  destruct (max_epiweek t) as [m'|] eqn:Hm.
  - intros [= <-]. destruct (IH m' eq_refl) as [(r' & Hr' & He) Hle]. split.
    + destruct (Z.max_spec (epiweek r) m') as [[_ ->]|[_ ->]].
      * exists r'. split; [by apply list_elem_of_further | done].
      * exists r. split; [apply list_elem_of_here | done].
    + intros r0 [->|Hin]%elem_of_cons; [lia|]. specialize (Hle r0 Hin). lia.
  - intros [= <-]. apply max_epiweek_None in Hm as ->. split.
    + exists r. split; [apply list_elem_of_here | done].
    + by intros r0 [->|[]%elem_of_nil]%elem_of_cons.
Qed.

Lemma greatest_epiweek_max t m :
  greatest_epiweek m t → max_epiweek t = Some m.
Proof.
  intros [(r & Hr & He) Hle].
  destruct (max_epiweek t) as [m'|] eqn:Hm.
  - apply max_epiweek_Some in Hm as [(r' & Hr' & He') Hle'].
    f_equal. specialize (Hle r' Hr'). specialize (Hle' r Hr). lia.
  - apply max_epiweek_None in Hm as ->. by apply elem_of_nil in Hr.
Qed.

End Series.

Section Run.

Context `{Environment}.

Implicit Types (t : list row) (f g : update_field) (w : world).
Implicit Types (qd_ts : gmap string (gmap Z number)).

Lemma update_skipped locations first last load_email w :
  need_update (quidel_QuidelData DATAPATH load_email) = false →
  update locations first last false load_email w =
    (tt, World (quidel w) (yearweek_now w)
           (events w ++ [EvQuidelData load_email; EvPrint NotUpdated])).
Proof.
  intros Hno. unfold update, bind, print, emit. rewrite Hno. simpl.
  by rewrite <-(assoc_L (++)).
Qed.

Lemma update_quidel locations first last force_update load_email w :
  quidel (update locations first last force_update load_email w).2 =
    if negb (need_update (quidel_QuidelData DATAPATH load_email))
       && negb force_update
    then quidel w
    else reconcile locations first last load_email (quidel w).
Proof.
  unfold update, bind.
  destruct (negb _ && negb _); [done|].
  cbn [emit fst snd].
  by rewrite !update_quid_db_quidel.
Qed.

(** A second round of the three passes finds every triple in place. *)
Lemma reconcile_idempotent locations first last load_email t :
  reconcile locations first last load_email
    (reconcile locations first last load_email t) =
  reconcile locations first last load_email t.
Proof.
  unfold reconcile.
  set (m := run_measurements load_email).
  set (wv := pass_writes locations (measurement_to_ts m 7 first last)).
  set (wr := pass_writes locations (measurement_to_ts m 3 first last)).
  set (wd := pass_writes locations (measurement_to_ts m 8 first last)).
  set (t3 := apply_writes NumDevices wd (apply_writes NumRows wr (apply_writes Value wv t))).
  assert (∀ x, x ∈ wv → holds Value x t3) as Hv.
  { intros x Hx. do 2 (apply holds_apply_writes_other; [done|]).
    by apply holds_apply_writes; [apply functional_pass_writes|]. }
  assert (∀ x, x ∈ wr → holds NumRows x t3) as Hr.
  { intros x Hx. apply holds_apply_writes_other; [done|].
    by apply holds_apply_writes; [apply functional_pass_writes|]. }
  assert (∀ x, x ∈ wd → holds NumDevices x t3) as Hd.
  { intros x Hx. by apply holds_apply_writes; [apply functional_pass_writes|]. }
  rewrite (apply_writes_noop Value wv t3 Hv).
  rewrite (apply_writes_noop NumRows wr t3 Hr).
  by rewrite (apply_writes_noop NumDevices wd t3 Hd).
Qed.

End Run.

(** * The claims *)

Section Claims.

Context `{Environment}.

Implicit Types (t : list row) (f g : update_field) (w : world).
Implicit Types (qd_ts : gmap string (gmap Z number)).

(** C1 — Idempotence.  Running [update] a second time, with the same
    collaborator, overrides and locations, on the table the first run left
    (whatever the server's clock and the trace are by then), leaves exactly
    the rows the first run left. *)
Theorem update_twice_same_contents locations first last force_update
    load_email w now' trace' :
  let run := update locations first last force_update load_email in
  quidel (run (World (quidel (run w).2) now' trace')).2 = quidel (run w).2.
Proof.
  intros run. unfold run. rewrite !update_quidel. simpl.
  destruct (negb _ && negb _); [done|]. apply reconcile_idempotent.
Qed.

(** C2 — Column isolation.  On a table that respects its unique key, a pass
    of [update_quid_db] for column [f] keeps the unique key; every row stays
    in place with its key and its two other columns, and a row whose key the
    pass does not write is left as it is. *)
Theorem upsert_pass_column_isolation locations first last qd_ts f w :
  unique_keys (quidel w) →
  let t' := quidel (update_quid_db locations first last qd_ts f w).2 in
  unique_keys t' ∧
  ∀ i r, quidel w !! i = Some r →
    ∃ r', t' !! i = Some r' ∧ key r' = key r ∧
          (∀ g, g ≠ f → col g r' = col g r) ∧
          (¬ written locations qd_ts (location r) (epiweek r) → r' = r).
Proof.
  intros Hu t'. unfold t'. rewrite update_quid_db_quidel. split.
  - by apply apply_writes_unique_keys.
  - intros i r Hi.
    destruct (apply_writes_lookup f (pass_writes locations qd_ts) _ i r Hi)
      as (r' & Hi' & Hk & Hc & Hn).
    exists r'. split_and!; [done..|].
    intros Hnw. apply Hn. by rewrite elem_of_pass_keys.
Qed.

(** C4 — Window override precedence.  With both overrides the pass prints
    the window [first, last], whatever the table and the clock hold; each
    override replaces the bound on its own side. *)
Theorem overrides_fix_the_window locations (first last : Z) qd_ts f w :
  (∃ rest,
     issued (update_quid_db locations (Some first) (Some last) qd_ts f) w =
       EvExecute SelectWindow :: EvPrint (Checking first last) :: rest) ∧
  (∀ max_ew now_ew,
     resolve_window (Some first) (Some last) max_ew now_ew = (first, last)) ∧
  (∀ last' max_ew now_ew,
     (resolve_window (Some first) last' max_ew now_ew).1 = first) ∧
  (∀ first' max_ew now_ew,
     (resolve_window first' (Some last) max_ew now_ew).2 = last).
Proof.
  split_and!; [|done..].
  rewrite issued_update_quid_db. simpl. eauto.
Qed.

(** C5 — Lower bound of the window.  Without a [first] override the pass
    prints 200401 as lower bound on an empty table, and otherwise
    [add_epiweeks m (-4)] for the greatest epiweek [m] of the table. *)
Theorem lower_bound_without_first_override locations last qd_ts f w :
  ∃ ew0 ew1 rest,
    issued (update_quid_db locations None last qd_ts f) w =
      EvExecute SelectWindow :: EvPrint (Checking ew0 ew1) :: rest ∧
    (quidel w = [] → ew0 = 200401) ∧
    (∀ m, greatest_epiweek m (quidel w) → ew0 = add_epiweeks m (-4)).
Proof.
  rewrite issued_update_quid_db. simpl. do 3 eexists. split_and!; [done | |].
  - by intros ->.
  - intros m Hm. by rewrite (greatest_epiweek_max _ _ Hm).
Qed.

(** C6 — Configuration rejection.  When both overrides are given in the
    wrong order, or [check_epiweek] refuses one of them, [main] raises a
    configuration error and the world is as it was: nothing was loaded,
    counted or written. *)
Theorem invalid_overrides_rejected (a : args) w :
  (∃ first last,
     arg_first a = Some first ∧ arg_last a = Some last ∧ last < first) ∨
  (∃ first, arg_first a = Some first ∧ check_epiweek first = false) ∨
  (∃ last, arg_last a = Some last ∧ check_epiweek last = false) →
  ∃ e, main a w = (Raised e, w) ∧ is_configuration_error e = true.
Proof.
  unfold main, check_override, wrong_order.
  intros [(first & last & -> & -> & Hlt)|[(first & -> & Hc)|(last & -> & Hc)]].
  - destruct (check_epiweek first); [|by eexists].
    destruct (check_epiweek last); [|by eexists].
    apply Z.ltb_lt in Hlt as ->. by eexists.
  - rewrite Hc. by eexists.
  - rewrite Hc. destruct (arg_first a) as [first|]; [|by eexists].
    destruct (check_epiweek first); by eexists.
Qed.

(** C7 — No update needed.  When the collaborator reports no new data and
    the update is not forced, [update] constructs the collaborator, prints
    its message and returns: the table is unchanged and no event of the run
    reaches the database. *)
Theorem no_update_needed_leaves_storage locations first last load_email w :
  need_update (quidel_QuidelData DATAPATH load_email) = false →
  let p := update locations first last false load_email in
  quidel (p w).2 = quidel w ∧
  issued p w = [EvQuidelData load_email; EvPrint NotUpdated] ∧
  Forall (λ e, touches_storage e = false) (issued p w).
Proof.
  intros Hno p.
  assert (issued p w = [EvQuidelData load_email; EvPrint NotUpdated]) as Hi.
  { apply issued_app. unfold p. by rewrite update_skipped. }
  split_and!; [|done|].
  - unfold p. by rewrite update_skipped.
  - rewrite Hi. by repeat constructor.
Qed.

(** C8 — Location filtering.  A pass executes an upsert of [(loc, ew, v)]
    exactly when [loc] is requested, the series has [loc], and the series of
    [loc] maps [ew] to [v]; the column is the one of the pass. *)
Theorem writes_are_requested_series_locations locations first last qd_ts f w
    g loc ew v :
  EvExecute (Upsert g loc ew v)
    ∈ issued (update_quid_db locations first last qd_ts f) w ↔
  g = f ∧ loc ∈ locations ∧
  ∃ series, qd_ts !! loc = Some series ∧ series !! ew = Some v.
Proof.
  set (e := EvExecute (Upsert g loc ew v)).
  assert (e ∈ issued (update_quid_db locations first last qd_ts f) w ↔
          e ∈ upsert_event f <$> pass_writes locations qd_ts) as ->.
  { rewrite <-(filter_upsert_issued locations first last qd_ts f w),
      list_elem_of_filter. naive_solver. }
  rewrite list_elem_of_fmap. split.
  - intros ([[loc' ew'] v'] & [= -> -> -> ->] & Hx%elem_of_pass_writes). done.
  - intros (-> & Hloc & Hs). exists (loc, ew, v). split; [done|].
    by apply elem_of_pass_writes.
Qed.

(** C9 — Row delta reporting.  The last line a pass prints is
    [Inserted inserted considered], where [inserted] is the row count after
    the pass minus the row count before it, which is the number of keys the
    pass writes that the table did not have, and [considered] is the number
    of upserts the pass executed. *)
Theorem inserted_count_is_row_delta locations ov_first ov_last qd_ts f w :
  let p := update_quid_db locations ov_first ov_last qd_ts f in
  let created := new_keys (pass_writes locations qd_ts) (quidel w) in
  ∃ inserted considered,
    last (issued p w) = Some (EvPrint (Inserted inserted considered)) ∧
    inserted = count_rows (quidel (p w).2) - count_rows (quidel w) ∧
    inserted = Z.of_nat (size created) ∧
    (∀ k, k ∈ created ↔
          written locations qd_ts k.1 k.2 ∧ k ∉ key <$> quidel w) ∧
    considered =
      Z.of_nat (length (filter (λ e, is_upsert e = true) (issued p w))).
Proof.
  intros p created. unfold p.
  rewrite filter_upsert_issued, length_fmap, issued_update_quid_db.
  rewrite update_quid_db_quidel.
  do 2 eexists. split_and!.
  - rewrite !app_assoc.
    match goal with |- last (?l ++ [?x; ?y]) = _ =>
      change (l ++ [x; y]) with (l ++ [x] ++ [y]); rewrite (assoc_L (++))
    end.
    apply last_snoc.
  - done.
  - unfold count_rows, created. rewrite apply_writes_length. lia.
  - intros k. apply elem_of_new_keys.
  - done.
Qed.


End Claims.

(** * The program on the sample environment *)

Module Runs.

Import Sample.

#[local] Existing Instance fresh.

(** Requesting hhs1 and hhs2 against a series that has hhs1 and hhs3 writes
    the triples of hhs1 only. *)
Example location_filtering :
  filter (λ e, is_upsert e = true)
    (issued (update_quid_db (H := fresh) ["hhs1"; "hhs2"] None None ts13
               Value) w0) =
  [EvExecute (Upsert Value "hhs1" 201701 11)].
Proof. reflexivity. Qed.

(** Five new keys and three existing ones: 5 inserted out of 8 considered. *)
Example five_of_eight :
  last (issued (update_quid_db (H := fresh) ["hhs1"] None None ts8 NumRows) w3)
  = Some (EvPrint (Inserted 5 8)).
Proof. reflexivity. Qed.

(** With first=200501 and last=200510 the window is [200501, 200510]. *)
Example window_override :
  issued (update_quid_db (H := fresh) [] (Some 200501) (Some 200510) ts8 Value)
    w3 =
  [EvExecute SelectWindow; EvPrint (Checking 200501 200510);
   EvExecute SelectCount; EvExecute SelectCount; EvPrint (Inserted 0 0)].
Proof. reflexivity. Qed.

(** The three passes fill the three columns of each row. *)
Example full_run :
  quidel (update (H := fresh) ["hhs1"; "hhs2"] None None false true w0).2 =
  [@Row fresh "hhs1" 201601 2 10 5; @Row fresh "hhs1" 201749 4 8 2].
Proof. reflexivity. Qed.

(** C3 — The resolved window does not bound what a pass writes.  On an empty
    table in epiweek 201750, with no overrides, the second pass of [update]
    prints the window [201745, 201750] and then upserts the hhs1 entry of
    epiweek 201601, which lies outside of it. *)
Lemma write_outside_resolved_window :
  let p := update (H := fresh) ["hhs1"] None None false true in
  ∃ pre post,
    issued p w0 =
      pre ++
      [EvExecute SelectWindow; EvPrint (Checking 201745 201750);
       EvExecute SelectCount; EvExecute (Upsert NumRows "hhs1" 201601 10)] ++
      post ∧
    ¬ (201745 ≤ 201601 ≤ 201750).
Proof.
  intros p.
  exists
    [@EvQuidelData fresh true; EvLoadCsv; EvPrepare true 4; EvPrepare false 4;
     EvConnect; EvExecute SelectWindow; EvPrint (Checking 200401 201750);
     EvExecute SelectCount; EvExecute (@Upsert fresh Value "hhs1" 201601 2);
     EvExecute (@Upsert fresh Value "hhs1" 201749 4); EvExecute SelectCount;
     EvPrint (Inserted 2 2)],
    [@EvExecute fresh (@Upsert fresh NumRows "hhs1" 201749 8); EvExecute SelectCount;
     EvPrint (Inserted 0 2); EvExecute SelectWindow;
     EvPrint (Checking 201745 201750); EvExecute SelectCount;
     EvExecute (@Upsert fresh NumDevices "hhs1" 201601 5);
     EvExecute (@Upsert fresh NumDevices "hhs1" 201749 2); EvExecute SelectCount;
     EvPrint (Inserted 0 2); EvCursorClose; EvCommit; EvClose].
  split; [reflexivity | lia].
Qed.

Lemma w3_unique_keys : unique_keys (quidel w3).
Proof. apply (bool_decide_unpack _). by vm_compute. Defined.

Lemma upsert_pass_column_isolation_witness :
  unique_keys (quidel w3) ∧
  unique_keys
    (quidel (update_quid_db (H := fresh) ["hhs1"] None None ts8 NumRows w3).2).
Proof.
  split; [exact w3_unique_keys|].
  exact (proj1 (upsert_pass_column_isolation (H := fresh) ["hhs1"] None None
                  ts8 NumRows w3 w3_unique_keys)).
Defined.

Lemma invalid_overrides_rejected_witness :
  (∃ first last,
     arg_first wrong_order_args = Some first ∧
     arg_last wrong_order_args = Some last ∧ last < first) ∧
  ∃ e, main (H := fresh) wrong_order_args w0 = (Raised e, w0) ∧
       is_configuration_error e = true.
Proof.
  assert (∃ first last,
     arg_first wrong_order_args = Some first ∧
     arg_last wrong_order_args = Some last ∧ last < first) as Hyp.
  { exists 200520, 200510. split_and!; [reflexivity | reflexivity | lia]. }
  split; [exact Hyp|].
  exact (invalid_overrides_rejected (H := fresh) wrong_order_args w0
           (or_introl Hyp)).
Defined.

Lemma no_update_needed_leaves_storage_witness :
  need_update (quidel_QuidelData (Environment := stale) DATAPATH true) = false ∧
  issued (update (H := stale) hhs_list None None false true) w0_stale =
    [EvQuidelData true; EvPrint NotUpdated].
Proof.
  split; [reflexivity|].
  exact (proj1 (proj2 (no_update_needed_leaves_storage (H := stale) hhs_list
                         None None true w0_stale eq_refl))).
Defined.



End Runs.

(** * Further properties of the program *)

Section MoreTable.

Context `{Environment}.

Implicit Types (t : list row) (r : row) (f g : update_field) (v : number).
Implicit Types (ws : list (string * Z * number)).

Lemma upsert_key_elem f loc ew v t : (loc, ew) ∈ key <$> upsert f loc ew v t.
Proof.
  rewrite upsert_keys. case_decide; [done|].
  apply elem_of_app. right. apply list_elem_of_here.
Qed.

Lemma upsert_keys_mono f loc ew v t k :
  k ∈ key <$> t → k ∈ key <$> upsert f loc ew v t.
Proof.
  rewrite upsert_keys. case_decide; [done|]. intros. apply elem_of_app. by left.
Qed.

Lemma apply_writes_keys_mono f ws t k :
  k ∈ key <$> t → k ∈ key <$> apply_writes f ws t.
Proof.
  revert t. induction ws as [|x ws IH]; intros t Hk; [done|].
  rewrite apply_writes_cons. by apply IH, upsert_keys_mono.
Qed.

(** Every key of a pass is a key of the table after the pass. *)
Lemma apply_writes_keys_written f ws t k :
  k ∈ ws.*1 → k ∈ key <$> apply_writes f ws t.
Proof.
  revert t. induction ws as [|x ws IH]; intros t.
  - by intros ?%elem_of_nil.
  - rewrite fmap_cons. intros [->|Hk]%elem_of_cons; rewrite apply_writes_cons.
    + apply apply_writes_keys_mono. destruct x as [[loc ew] v]. apply upsert_key_elem.
    + by apply IH.
Qed.

Lemma apply_writes_length_le f ws t :
  (length t ≤ length (apply_writes f ws t) ≤ length t + length ws)%nat.
Proof.
  revert t. induction ws as [|x ws IH]; intros t; [simpl; lia|].
  rewrite apply_writes_cons. specialize (IH (upsert f x.1.1 x.1.2 x.2 t)).
  rewrite upsert_length in IH. simpl. case_decide; lia.
Qed.

(** A row that an upsert adds is the new row of the statement. *)
Lemma upsert_lookup_new f loc ew v t i r :
  (length t ≤ i)%nat → upsert f loc ew v t !! i = Some r →
  r = new_row f loc ew v.
Proof.
  revert i. induction t as [|r0 t IH]; intros i Hi; simpl.
  - destruct i; [by intros [= <-] | done].
  - destruct i as [|i]; [simpl in Hi; lia|].
    case_decide; simpl.
    + intros Hl. apply lookup_lt_Some in Hl. simpl in Hi. lia.
    + apply IH. simpl in Hi. lia.
Qed.

(** The rows a pass adds carry a key of the pass and the column defaults in
    the columns the pass does not write. *)
Lemma apply_writes_lookup_new f ws t i r :
  (length t ≤ i)%nat → apply_writes f ws t !! i = Some r →
  key r ∈ ws.*1 ∧ ∀ g, g ≠ f → col g r = column_default g.
Proof.
  revert t. induction ws as [|x ws IH]; intros t Hi Hl.
  - apply lookup_lt_Some in Hl. simpl in Hl. lia.
  - rewrite apply_writes_cons in Hl. rewrite fmap_cons.
    set (t1 := upsert f x.1.1 x.1.2 x.2 t) in *.
    destruct (decide (length t1 ≤ i)%nat) as [Hge|Hlt].
    + destruct (IH t1 Hge Hl) as [Hk Hc]. split; [by apply list_elem_of_further | done].
    + destruct (lookup_lt_is_Some_2 t1 i) as [r1 Hr1]; [lia|].
      pose proof (upsert_lookup_new _ _ _ _ _ _ _ Hi Hr1) as ->.
      destruct (apply_writes_lookup f ws t1 i _ Hr1) as (r' & Hr' & Hk & Hc & _).
      rewrite Hl in Hr'. injection Hr' as <-. split.
      * rewrite Hk, key_new_row. destruct x as [[??]?]. apply list_elem_of_here.
      * intros g Hg. rewrite (Hc g Hg). unfold new_row. rewrite col_set_col_ne by done.
        by destruct g.
Qed.

End MoreTable.

Section MoreRun.

Context `{Environment}.

Implicit Types (t : list row) (r : row) (f g : update_field) (w : world).
Implicit Types (qd_ts : gmap string (gmap Z number)).

Lemma reconcile_unique_keys locations first last load_email t :
  unique_keys t → unique_keys (reconcile locations first last load_email t).
Proof. intros Hu. unfold reconcile. by do 3 apply apply_writes_unique_keys. Qed.

Lemma reconcile_lookup locations first last load_email t i r :
  t !! i = Some r →
  ∃ r', reconcile locations first last load_email t !! i = Some r' ∧
        key r' = key r.
Proof.
  intros Hi. unfold reconcile.
  destruct (apply_writes_lookup Value
              (pass_writes locations
                 (measurement_to_ts (run_measurements load_email) 7 first last))
              t i r Hi) as (r1 & H1 & K1 & _).
  destruct (apply_writes_lookup NumRows
              (pass_writes locations
                 (measurement_to_ts (run_measurements load_email) 3 first last))
              _ i r1 H1) as (r2 & H2 & K2 & _).
  destruct (apply_writes_lookup NumDevices
              (pass_writes locations
                 (measurement_to_ts (run_measurements load_email) 8 first last))
              _ i r2 H2) as (r3 & H3 & K3 & _).
  exists r3. split; [done | congruence].
Qed.

Lemma update_lookup locations first last force_update load_email w i r :
  quidel w !! i = Some r →
  ∃ r', quidel (update locations first last force_update load_email w).2 !! i
          = Some r' ∧ key r' = key r.
Proof.
  intros Hi. rewrite update_quidel. destruct (negb _ && negb _); [eauto|].
  by apply reconcile_lookup.
Qed.

Lemma last_issued_update_quid_db locations ov_first ov_last qd_ts f w :
  last (issued (update_quid_db locations ov_first ov_last qd_ts f) w) =
    Some (EvPrint
            (Inserted
               (count_rows (apply_writes f (pass_writes locations qd_ts) (quidel w))
                - count_rows (quidel w))
               (Z.of_nat (length (pass_writes locations qd_ts))))).
Proof.
  rewrite issued_update_quid_db, !app_assoc.
  match goal with |- last (?l ++ [?x; ?y]) = _ =>
    change (l ++ [x; y]) with (l ++ [x] ++ [y]); rewrite (assoc_L (++))
  end.
  apply last_snoc.
Qed.

End MoreRun.

Section Extras.

Context `{Environment}.

Implicit Types (t : list row) (r : row) (f g : update_field) (w : world).
Implicit Types (qd_ts : gmap string (gmap Z number)).

(** X1 — Write then read.  After a pass for column [f], the row of every
    key the pass writes carries the value of the series in column [f]. *)
Theorem pass_stores_series_values locations ov_first ov_last qd_ts f w
    loc (series : gmap Z number) ew v :
  loc ∈ locations → qd_ts !! loc = Some series → series !! ew = Some v →
  ∃ r, select_row loc ew
         (quidel (update_quid_db locations ov_first ov_last qd_ts f w).2)
       = Some r ∧ col f r = v.
Proof.
  intros Hloc Hs Hv. rewrite update_quid_db_quidel.
  apply (holds_apply_writes f _ _ (loc, ew, v)).
  - apply functional_pass_writes.
  - apply elem_of_pass_writes. eauto.
Qed.

(** X2 — A run fills each column from its own series.  After a run that is
    not skipped, the row of every requested location and epiweek of the
    series read at index 7, 3 or 8 carries that series' value in [value],
    [num_rows] or [num_devices]. *)
Theorem run_stores_each_series locations ov_first ov_last force_update
    load_email w f loc (series : gmap Z number) ew v :
  need_update (quidel_QuidelData DATAPATH load_email) = true
  ∨ force_update = true →
  loc ∈ locations →
  measurement_to_ts (run_measurements load_email) (field_index f)
    ov_first ov_last !! loc = Some series →
  series !! ew = Some v →
  ∃ r, select_row loc ew
         (quidel (update locations ov_first ov_last force_update load_email w).2)
       = Some r ∧ col f r = v.
Proof.
  intros Hrun Hloc Hs Hv. rewrite update_quidel.
  replace (negb _ && negb force_update) with false
    by (by destruct Hrun as [-> | ->]; rewrite ?andb_false_r).
  unfold reconcile.
  assert (∀ t, holds f (loc, ew, v)
                 (apply_writes f
                    (pass_writes locations
                       (measurement_to_ts (run_measurements load_email)
                          (field_index f) ov_first ov_last)) t)) as Hh.
  { intros t. apply holds_apply_writes; [apply functional_pass_writes|].
    apply elem_of_pass_writes. eauto. }
  destruct f; simpl in Hh.
  - do 2 (apply (holds_apply_writes_other _ Value (loc, ew, v)); [done|]). apply Hh.
  - apply (holds_apply_writes_other _ NumRows (loc, ew, v)); [done|]. apply Hh.
  - apply Hh.
Qed.

(** X3 — A pass over keys that an earlier pass wrote inserts nothing: it
    prints [Inserted 0 n]. *)
Theorem pass_over_written_keys_inserts_nothing locations locations'
    ov1 ov2 ov1' ov2' qd_ts qd_ts' f g w :
  (∀ loc ew, written locations' qd_ts' loc ew → written locations qd_ts loc ew) →
  let w1 := (update_quid_db locations ov1 ov2 qd_ts f w).2 in
  ∃ considered,
    last (issued (update_quid_db locations' ov1' ov2' qd_ts' g) w1) =
      Some (EvPrint (Inserted 0 considered)).
Proof.
  intros Hsub w1. eexists. rewrite last_issued_update_quid_db.
  do 3 f_equal. unfold count_rows. rewrite apply_writes_length.
  replace (new_keys (pass_writes locations' qd_ts') (quidel w1))
    with (∅ : gset (string * Z)); [rewrite size_empty; lia|].
  symmetry. apply set_eq. intros k. rewrite elem_of_new_keys.
  split; [|by intros ?%not_elem_of_empty].
  intros [Hw Hk]. destruct Hk. unfold w1. rewrite update_quid_db_quidel.
  apply apply_writes_keys_written, elem_of_pass_keys, Hsub, Hw.
Qed.

(** X4 — The line [Inserted a b] that ends a pass has 0 ≤ a ≤ b. *)
Theorem inserted_between_zero_and_considered locations ov_first ov_last
    qd_ts f w :
  ∃ inserted considered,
    last (issued (update_quid_db locations ov_first ov_last qd_ts f) w) =
      Some (EvPrint (Inserted inserted considered)) ∧
    0 ≤ inserted ≤ considered.
Proof.
  do 2 eexists. split; [apply last_issued_update_quid_db|].
  unfold count_rows.
  pose proof (apply_writes_length_le f (pass_writes locations qd_ts) (quidel w)).
  lia.
Qed.

(** X5 — Rows created by a pass.  A row that a pass adds to the table has a
    key the pass writes and holds the column default in the two columns the
    pass does not name. *)
Theorem created_rows_carry_defaults locations ov_first ov_last qd_ts f w i r :
  (length (quidel w) ≤ i)%nat →
  quidel (update_quid_db locations ov_first ov_last qd_ts f w).2 !! i = Some r →
  written locations qd_ts (location r) (epiweek r) ∧
  ∀ g, g ≠ f → col g r = column_default g.
Proof.
  rewrite update_quid_db_quidel. intros Hi Hl.
  destruct (apply_writes_lookup_new f _ _ _ _ Hi Hl) as [Hk Hc].
  split; [|done]. by apply elem_of_pass_keys in Hk.
Qed.

(** X6 — A run never deletes or re-keys a row.  On a table that respects
    its unique key, [update] keeps the unique key, never shrinks the table,
    and leaves every row at its place with its key. *)
Theorem update_keeps_rows_and_keys locations ov_first ov_last force_update
    load_email w :
  unique_keys (quidel w) →
  let t' :=
    quidel (update locations ov_first ov_last force_update load_email w).2 in
  unique_keys t' ∧
  (length (quidel w) ≤ length t')%nat ∧
  ∀ i r, quidel w !! i = Some r → ∃ r', t' !! i = Some r' ∧ key r' = key r.
Proof.
  intros Hu t'. split_and!.
  - unfold t'. rewrite update_quidel. destruct (negb _ && negb _); [done|].
    by apply reconcile_unique_keys.
  - destruct (decide (length (quidel w) ≤ length t')%nat) as [|Hn]; [done|].
    destruct (lookup_lt_is_Some_2 (quidel w) (length t')) as [r Hr]; [lia|].
    destruct (update_lookup locations ov_first ov_last force_update load_email
                w _ _ Hr) as (r' & Hr' & _).
    apply lookup_lt_Some in Hr'. fold t' in Hr'. lia.
  - intros i r Hi. by apply update_lookup.
Qed.

(** X7 — The greatest stored epiweek never decreases through a run. *)
Theorem greatest_epiweek_never_decreases locations ov_first ov_last
    force_update load_email w m :
  greatest_epiweek m (quidel w) →
  ∃ m',
    greatest_epiweek m'
      (quidel (update locations ov_first ov_last force_update load_email w).2)
    ∧ m ≤ m'.
Proof.
  intros [(r & Hr & He) _].
  apply list_elem_of_lookup in Hr as [i Hi].
  destruct (update_lookup locations ov_first ov_last force_update load_email
              w _ _ Hi) as (r' & Hr' & Hk).
  set (t' := quidel (update _ _ _ _ _ w).2) in *.
  destruct (max_epiweek t') as [m'|] eqn:Hm.
  - apply max_epiweek_Some in Hm. exists m'. split; [done|].
    destruct Hm as [_ Hle]. specialize (Hle r' (list_elem_of_lookup_2 _ _ _ Hr')).
    injection Hk as _ Hk. lia.
  - apply max_epiweek_None in Hm. by rewrite Hm in Hr'.
Qed.

End Extras.

Section MoreSeries.

Context `{Environment}.

Implicit Types (f g : update_field) (w : world).
Implicit Types (qd_ts : gmap string (gmap Z number)).
Implicit Types (ws : list (string * Z * number)) (loc : string).

Lemma omap_lookup_all loc (series : gmap Z number) (l : list (Z * number)) :
  Forall (λ p, series !! p.1 = Some p.2) l →
  omap (λ ew, (λ v, (loc, ew, v)) <$> series !! ew) l.*1 =
    (λ p, (loc, p.1, p.2)) <$> l.
Proof.
  induction 1 as [|[ew v] l Hp _ IH]; [done|]. csimpl. simpl in Hp.
  by rewrite Hp, IH.
Qed.

(** The triples of a location are the entries of its series, in some
    order. *)
Lemma location_writes_Permutation qd_ts loc (series : gmap Z number) :
  qd_ts !! loc = Some series →
  location_writes qd_ts loc ≡ₚ (λ p, (loc, p.1, p.2)) <$> map_to_list series.
Proof.
  intros Hs. unfold location_writes, sorted_keys. rewrite Hs.
  rewrite merge_sort_Permutation. rewrite omap_lookup_all; [done|].
  apply Forall_forall. intros [ew v]. apply elem_of_map_to_list.
Qed.

Lemma location_writes_epiweeks qd_ts loc (series : gmap Z number) :
  qd_ts !! loc = Some series →
  (location_writes qd_ts loc).*1.*2 = sorted_keys series.
Proof.
  intros Hs. unfold location_writes. rewrite Hs.
  assert (Forall (λ ew, is_Some (series !! ew)) (sorted_keys series)) as Hall.
  { apply Forall_forall. intros ew. apply elem_of_sorted_keys. }
  induction Hall as [|ew ews [v Hv] _ IH]; [done|]. csimpl.
  rewrite Hv. csimpl. by rewrite IH.
Qed.

Lemma length_sorted_keys (series : gmap Z number) :
  length (sorted_keys series) = size series.
Proof.
  unfold sorted_keys.
  by rewrite merge_sort_Permutation, length_fmap, length_map_to_list.
Qed.

Lemma sorted_keys_increasing (series : gmap Z number) :
  StronglySorted Z.lt (sorted_keys series).
Proof.
  assert (NoDup (sorted_keys series)) as Hnd.
  { unfold sorted_keys. rewrite merge_sort_Permutation.
    apply NoDup_fst_map_to_list. }
  assert (StronglySorted Z.le (sorted_keys series)) as Hs.
  { apply (StronglySorted_merge_sort Z.le). }
  induction Hs as [|x l _ IH Hall]; [constructor|].
  apply NoDup_cons in Hnd as [Hx Hnd]. constructor; [by apply IH|].
  apply Forall_forall. intros y Hy.
  pose proof (proj1 (Forall_forall _ _) Hall y Hy).
  assert (x ≠ y) by (by intros ->). lia.
Qed.

Lemma zeros_filter ws :
  zeros ws = Z.of_nat (length (filter (λ x, is_zero x.2 = true) ws)).
Proof.
  induction ws as [|x ws IH]; [done|]. simpl. rewrite IH.
  destruct (is_zero x.2) eqn:Hz.
  - rewrite filter_cons_True by done. simpl. lia.
  - rewrite filter_cons_False by (by rewrite Hz). done.
Qed.

Lemma zeros_location_writes qd_ts loc (series : gmap Z number) :
  qd_ts !! loc = Some series →
  zeros (location_writes qd_ts loc) =
    Z.of_nat (length (filter (λ p, is_zero p.2 = true) (map_to_list series))).
Proof.
  intros Hs. rewrite zeros_filter, (location_writes_Permutation _ _ _ Hs).
  f_equal. generalize (map_to_list series) as l.
  induction l as [|p l IH]; [done|]. csimpl.
  destruct (is_zero p.2) eqn:Hz.
  - rewrite !filter_cons_True by done. simpl. by rewrite IH.
  - rewrite !filter_cons_False by (by simpl; rewrite Hz). done.
Qed.




End MoreSeries.

Section Extras2.

Context `{Environment}.

Implicit Types (f g : update_field) (w : world) (loc : string).
Implicit Types (qd_ts : gmap string (gmap Z number)).





(** X9 — Missing values.  A pass prints [Missing loc n len] exactly for a
    requested location of the series that has a zero value: [n] is the
    number of zero values of the series of [loc] and [len] the number of its
    epiweeks. *)
Theorem missing_report locations ov_first ov_last qd_ts f w loc n len :
  EvPrint (Missing loc n len)
    ∈ issued (update_quid_db locations ov_first ov_last qd_ts f) w ↔
  loc ∈ locations ∧
  ∃ series : gmap Z number,
    qd_ts !! loc = Some series ∧
    n = Z.of_nat (length (filter (λ p, is_zero p.2 = true) (map_to_list series))) ∧
    0 < n ∧
    len = Z.of_nat (size series).
Proof.
  rewrite issued_update_quid_db, !elem_of_app, list_elem_of_bind.
  split.
  - intros [Hin|[(loc' & Hin & Hloc')|Hin]].
    + repeat (apply elem_of_cons in Hin as [|Hin]; [done|]). by apply elem_of_nil in Hin.
    + unfold location_events in Hin.
      destruct (qd_ts !! loc') as [series|] eqn:Hs; [|by apply elem_of_nil in Hin].
      apply elem_of_app in Hin as [Hin|Hin].
      { apply list_elem_of_fmap in Hin as (x & Hx & _). done. }
      destruct (0 <? zeros (location_writes qd_ts loc')) eqn:Hz;
        [|by apply elem_of_nil in Hin].
      apply list_elem_of_singleton in Hin. injection Hin as -> -> ->.
      split; [done|]. exists series. apply Z.ltb_lt in Hz.
      rewrite (zeros_location_writes _ _ _ Hs) in Hz |- *.
      by rewrite length_sorted_keys.
    + repeat (apply elem_of_cons in Hin as [|Hin]; [done|]). by apply elem_of_nil in Hin.
  - intros (Hloc & series & Hs & -> & Hn & ->). right. left.
    exists loc. split; [|done]. unfold location_events. rewrite Hs.
    apply elem_of_app. right.
    rewrite (zeros_location_writes _ _ _ Hs), length_sorted_keys.
    apply Z.ltb_lt in Hn as ->. apply list_elem_of_here.
Qed.

(** X10 — Order of the statements.  For one requested location the upserts
    of a pass are the entries of its series, each once, in strictly
    increasing order of epiweek. *)
Theorem upserts_in_epiweek_order ov_first ov_last qd_ts f w loc
    (series : gmap Z number) :
  qd_ts !! loc = Some series →
  ∃ ws : list (string * Z * number),
    filter (λ e, is_upsert e = true)
      (issued (update_quid_db [loc] ov_first ov_last qd_ts f) w) =
      upsert_event f <$> ws ∧
    StronglySorted Z.lt ws.*1.*2 ∧
    ws ≡ₚ (λ p, (loc, p.1, p.2)) <$> map_to_list series.
Proof.
  intros Hs. exists (location_writes qd_ts loc). split_and!.
  - rewrite filter_upsert_issued. unfold pass_writes. csimpl.
    by rewrite app_nil_r.
  - rewrite (location_writes_epiweeks _ _ _ Hs). apply sorted_keys_increasing.
  - by apply location_writes_Permutation.
Qed.

(** X12 — Which exception.  The first override is checked before the last
    one, and both before their order: the exception is that of the first
    check that fails. *)
Theorem main_exception_precedence (a : args) w :
  (∀ first, arg_first a = Some first → check_epiweek first = false →
     main a w = (Raised (InvalidEpiweek first), w)) ∧
  (∀ last, check_override (arg_first a) = None →
     arg_last a = Some last → check_epiweek last = false →
     main a w = (Raised (InvalidEpiweek last), w)) ∧
  (∀ first last, arg_first a = Some first → arg_last a = Some last →
     check_epiweek first = true → check_epiweek last = true → last < first →
     main a w = (Raised WrongOrder, w)).
Proof.
  unfold main, check_override. split_and!.
  - by intros first -> ->.
  - intros lst -> -> Hc. by rewrite Hc.
  - intros first lst -> -> -> -> Hlt. simpl. by apply Z.ltb_lt in Hlt as ->.
Qed.

(** X15 — Repeated locations.  Requesting every location twice gives the
    same table as requesting it once. *)
Theorem repeated_locations_same_table locations ov_first ov_last qd_ts f w :
  quidel (update_quid_db (locations ++ locations) ov_first ov_last qd_ts f w).2
  = quidel (update_quid_db locations ov_first ov_last qd_ts f w).2.
Proof.
  rewrite !update_quid_db_quidel. unfold pass_writes.
  rewrite bind_app, apply_writes_app. fold (pass_writes locations qd_ts).
  apply apply_writes_noop. intros x Hx.
  by apply holds_apply_writes; [apply functional_pass_writes|].
Qed.

(** X16 — The considered count.  The second number of the line
    [Inserted a b] is the number of epiweeks of the series of each requested
    location, summed over the request; a location without series counts
    for nothing. *)
Theorem considered_is_sum_of_series_sizes locations ov_first ov_last qd_ts f w :
  ∃ inserted,
    last (issued (update_quid_db locations ov_first ov_last qd_ts f) w) =
      Some (EvPrint
              (Inserted inserted
                 (Z.of_nat
                    (sum_list
                       ((λ loc, from_option size 0%nat (qd_ts !! loc))
                          <$> locations))))).
Proof.
  eexists. rewrite last_issued_update_quid_db. do 4 f_equal.
  unfold pass_writes. induction locations as [|loc locations IH]; [done|].
  csimpl. rewrite length_app, IH. f_equal.
  destruct (qd_ts !! loc) as [series|] eqn:Hs; simpl.
  - by rewrite (location_writes_Permutation _ _ _ Hs), length_fmap,
      length_map_to_list.
  - unfold location_writes. by rewrite Hs.
Qed.

End Extras2.

Section Strings.

Lemma split_not_nil sep s : split sep s ≠ [].
Proof.
  destruct s as [|c s]; simpl; [done|].
  destruct (Ascii.eqb c sep); [done|]. by destruct (split sep s).
Qed.

(** X14 — Splitting and joining.  Joining the pieces of [split sep s] with
    [sep] gives [s] back, and no piece contains [sep]. *)
Theorem split_concat sep s :
  String.concat (String sep EmptyString) (split sep s) = s ∧
  Forall (λ x, has_char sep x = false) (split sep s).
Proof.
  induction s as [|c s [IHc IHf]]; simpl.
  - split; [done | by repeat constructor].
  - destruct (Ascii.eqb c sep) eqn:Hc.
    + apply Ascii.eqb_eq in Hc as ->. split; [|by constructor].
      pose proof (split_not_nil sep s).
      destruct (split sep s) as [|x xs]; [done|]. simpl in *. by rewrite IHc.
    + pose proof (split_not_nil sep s).
      destruct (split sep s) as [|x xs]; [done|].
      apply Forall_cons in IHf as [Hx Hxs]. split.
      * simpl in *. destruct xs; simpl in *; by rewrite <-IHc.
      * constructor; [|done]. simpl. by rewrite Hc, Hx.
Qed.

End Strings.

(** * The further properties on the sample environment *)

Module MoreRuns.

Import Sample.

#[local] Existing Instance fresh.

Lemma hhs1_requested : "hhs1" ∈ ["hhs1"].
Proof. apply list_elem_of_here. Defined.

Lemma pass_stores_series_values_witness :
  ("hhs1" ∈ ["hhs1"] ∧ ts13 !! "hhs1" = Some ts13_hhs1 ∧
   ts13_hhs1 !! 201701 = Some 11) ∧
  ∃ r, select_row "hhs1" 201701
         (quidel (update_quid_db ["hhs1"] None None ts13 Value w0).2)
       = Some r ∧ col Value r = 11.
Proof.
  split; [split_and!; [exact hhs1_requested | reflexivity | reflexivity]|].
  exact (pass_stores_series_values ["hhs1"] None None ts13 Value w0
           "hhs1" ts13_hhs1 201701 11 hhs1_requested eq_refl eq_refl).
Defined.

Lemma run_stores_each_series_witness :
  (need_update (quidel_QuidelData DATAPATH true) = true ∧
   "hhs1" ∈ ["hhs1"] ∧
   measurement_to_ts (run_measurements true) (field_index NumRows) None None
     !! "hhs1" = Some hhs1_rows ∧
   hhs1_rows !! 201601 = Some 10) ∧
  ∃ r, select_row "hhs1" 201601
         (quidel (update ["hhs1"] None None false true w0).2)
       = Some r ∧ col NumRows r = 10.
Proof.
  split;
    [split_and!; [reflexivity | exact hhs1_requested | reflexivity | reflexivity]|].
  exact (run_stores_each_series ["hhs1"] None None false true w0 NumRows
           "hhs1" hhs1_rows 201601 10 (or_introl eq_refl) hhs1_requested
           eq_refl eq_refl).
Defined.

Lemma pass_over_written_keys_inserts_nothing_witness :
  (∀ loc ew, written ["hhs1"] ts13 loc ew → written ["hhs1"] ts13 loc ew) ∧
  ∃ considered,
    last (issued (update_quid_db ["hhs1"] None None ts13 NumRows)
            (update_quid_db ["hhs1"] None None ts13 Value w0).2) =
      Some (EvPrint (Inserted 0 considered)).
Proof.
  split; [exact (λ _ _ Hw, Hw)|].
  exact (pass_over_written_keys_inserts_nothing ["hhs1"] ["hhs1"] None None
           None None ts13 ts13 Value NumRows w0 (λ _ _ Hw, Hw)).
Defined.

Lemma created_rows_carry_defaults_witness :
  ((length (quidel w0) ≤ 0)%nat ∧
   quidel (update_quid_db ["hhs1"] None None ts13 Value w0).2 !! 0%nat
     = Some (@Row fresh "hhs1" 201701 11 0 0)) ∧
  written ["hhs1"] ts13 "hhs1" 201701 ∧
  ∀ g, g ≠ Value → col g (@Row fresh "hhs1" 201701 11 0 0) = column_default g.
Proof.
  split; [split; [exact (le_n 0) | reflexivity]|].
  exact (created_rows_carry_defaults ["hhs1"] None None ts13 Value w0 0%nat
           (@Row fresh "hhs1" 201701 11 0 0) (le_n 0) eq_refl).
Defined.

Lemma update_keeps_rows_and_keys_witness :
  unique_keys (quidel w3) ∧
  unique_keys (quidel (update ["hhs1"] None None false true w3).2).
Proof.
  split; [exact Runs.w3_unique_keys|].
  exact (proj1 (update_keeps_rows_and_keys ["hhs1"] None None false true w3
                  Runs.w3_unique_keys)).
Defined.

Lemma w3_greatest_epiweek : greatest_epiweek 201703 (quidel w3).
Proof. by apply max_epiweek_Some. Defined.

Lemma greatest_epiweek_never_decreases_witness :
  greatest_epiweek 201703 (quidel w3) ∧
  ∃ m', greatest_epiweek m'
          (quidel (update ["hhs1"] None None false true w3).2) ∧
        201703 ≤ m'.
Proof.
  split; [exact w3_greatest_epiweek|].
  exact (greatest_epiweek_never_decreases ["hhs1"] None None false true w3
           201703 w3_greatest_epiweek).
Defined.


Lemma upserts_in_epiweek_order_witness :
  ts13 !! "hhs1" = Some ts13_hhs1 ∧
  ∃ ws : list (string * Z * Z),
    filter (λ e, is_upsert e = true)
      (issued (update_quid_db ["hhs1"] None None ts13 Value) w0) =
      upsert_event Value <$> ws ∧
    StronglySorted Z.lt ws.*1.*2 ∧
    ws ≡ₚ (λ p, ("hhs1", p.1, p.2)) <$> map_to_list ts13_hhs1.
Proof.
  split; [reflexivity|].
  exact (upserts_in_epiweek_order None None ts13 Value w0 "hhs1" ts13_hhs1
           eq_refl).
Defined.

End MoreRuns.
